(** * vespa: phrase splitter query environment, Alloc, roundUp2inN

    A shallow embedding of
    - [searchlib/src/vespa/searchlib/fef/phrase_splitter_query_env.h]
    - [vespalib/src/vespa/vespalib/util/alloc.h]
    and the properties their specification states about them. *)

From Stdlib Require Import ZArith Lia.
From stdpp Require Import gmap strings list fin_maps.

(** ** vespalib: [roundUp2inN] (alloc.h, namespace vespalib) *)

Module vespalib.

Local Open Scope Z_scope.

(** [size_t] and [unsigned long] are 64 bits wide; arithmetic on them is
    modulo [2^64]. *)
Definition size_t_bits : Z := 64.
Definition size_t_wrap (z : Z) : Z := z mod 2 ^ size_t_bits.
Definition is_size_t (z : Z) : Prop := 0 <= z < 2 ^ size_t_bits.

(** Modelled from the spec: [Optimized::msbIdx] lives in optimized.h, which is
    not part of the sources at hand.  It is the index of the most significant
    set bit of a 64-bit value, and 0 for the value 0 (the value the claim on
    [roundUp2inN 1] pins down). *)
Definition msbIdx (v : Z) : Z := Z.log2 v.

(** [inline size_t roundUp2inN(size_t minimum)
       { return 2ul << Optimized::msbIdx(minimum - 1); }] *)
Definition roundUp2inN (minimum : Z) : Z :=
  size_t_wrap (Z.shiftl 2 (msbIdx (size_t_wrap (minimum - 1)))).

Definition is_power_of_two (r : Z) : Prop := exists n, 0 <= n /\ r = 2 ^ n.

Definition smallest_power_of_two_geq (minimum r : Z) : Prop :=
  is_power_of_two r /\ minimum <= r /\
  forall p, is_power_of_two p -> minimum <= p -> r <= p.

End vespalib.

(** ** vespalib::alloc: [Alloc] (alloc.h) *)

Module alloc.

Local Open Scope Z_scope.

(** [void *] and [const MemoryAllocator *]: the null pointer or an address. *)
Inductive pointer : Type :=
| nullptr : pointer
| address (a : positive) : pointer.

(** [using PtrAndSize = std::pair<void *, size_t>]. *)
Definition PtrAndSize : Type := (pointer * Z)%type.

Record Alloc : Type := mkAlloc {
  _alloc : PtrAndSize;
  _allocator : pointer
}.

Definition size (a : Alloc) : Z := snd (_alloc a).
Definition get (a : Alloc) : pointer := fst (_alloc a).

(** [Alloc() noexcept : _alloc(nullptr, 0), _allocator(nullptr) { }] *)
Definition Alloc_default : Alloc := mkAlloc (nullptr, 0) nullptr.

(** [Alloc(const MemoryAllocator * allocator) noexcept
       : _alloc(nullptr, 0), _allocator(allocator) { }] *)
Definition Alloc_of_allocator (allocator : pointer) : Alloc :=
  mkAlloc (nullptr, 0) allocator.

(** [void clear()]: the three assignments, in the order of the source. *)
Definition clear (a : Alloc) : Alloc :=
  let a1 := mkAlloc (nullptr, snd (_alloc a)) (_allocator a) in
  let a2 := mkAlloc (fst (_alloc a1), 0) (_allocator a1) in
  mkAlloc (_alloc a2) nullptr.

(** [Alloc(Alloc && rhs) noexcept]: the new object takes [rhs]'s fields and
    [rhs] is cleared.  The result is (new object, [rhs] afterwards). *)
Definition Alloc_move (rhs : Alloc) : Alloc * Alloc :=
  (mkAlloc (_alloc rhs) (_allocator rhs), clear rhs).

(** Modelled from the spec: [Alloc & operator=(Alloc && rhs) noexcept] is only
    declared in alloc.h.  The destination takes over the allocation and the
    strategy of [rhs], and [rhs] is left as [clear] leaves it.  [this] and
    [rhs] are two objects; the release of the allocation [this] held before is
    outside this model.  The result is ([this] afterwards, [rhs] afterwards). *)
Definition Alloc_move_assign (this rhs : Alloc) : Alloc * Alloc :=
  (mkAlloc (_alloc rhs) (_allocator rhs), clear rhs).

(** [void swap(Alloc & rhs) noexcept]. *)
Definition swap (this rhs : Alloc) : Alloc * Alloc :=
  (mkAlloc (_alloc rhs) (_allocator rhs),
   mkAlloc (_alloc this) (_allocator this)).

Section Create.
(** [Alloc(const MemoryAllocator * allocator, size_t sz) noexcept] is
    declared in alloc.h and defined elsewhere: a parameter here. *)
Variable Alloc_sized : pointer -> Z -> Alloc.

(** [Alloc create(size_t sz) const noexcept
       { return (sz == 0) ? Alloc(_allocator) : Alloc(_allocator, sz); }] *)
Definition create (this : Alloc) (sz : Z) : Alloc :=
  if sz =? 0 then Alloc_of_allocator (_allocator this)
  else Alloc_sized (_allocator this) sz.
End Create.

(** The empty state: no buffer, size 0, no allocator. *)
Definition is_empty (a : Alloc) : Prop :=
  get a = nullptr /\ size a = 0 /\ _allocator a = nullptr.

End alloc.

(** ** search::fef: [PhraseSplitterQueryEnv] (phrase_splitter_query_env.h)

    Term indices, handles, phrase offsets and occurrence positions are
    natural numbers here, as the specification has them (integers).  The
    narrowing of [size()] to [uint32_t] in [getNumTerms] is the identity
    below [2^32] terms and is not modelled. *)

Module fef.

(** [TermFieldHandle] (handle.h) is an unsigned 32-bit integer.  Handles are
    counted in [nat] here; the count is what a 32-bit field holds as long as
    it stays below [2^32], and the theorems that depend on the values of
    synthesized handles say so in a hypothesis. *)
Abbreviation TermFieldHandle := nat (only parsing).

Section QueryEnvironment.

(** What the query environment hands out by reference and the facade only
    forwards: opaque to this development. *)
Context {Properties Location IAttributeContext IIndexEnvironment : Type}.
Context {double FieldMetadata : Type}.

(** Modelled from the spec: the Term capability ([ITermData] and
    [SimpleTermData] come from itermdata.h and simpletermdata.h, which are
    not part of the sources at hand).  A term has a sub-term count (its
    phrase length), the field references it carries with their per-field
    metadata, and a handle. *)
Record FieldReference : Type := mkFieldReference {
  field_id : nat;
  field_metadata : FieldMetadata
}.

(** Modelled from the spec: a term, "sub-term count, set of fields
    referenced, an assigned handle". *)
Record ITermData : Type := mkTermData {
  sub_term_count : nat;
  fields : list FieldReference;
  handle : TermFieldHandle
}.

(** [SimpleTermData] is the plain implementation of [ITermData]. *)
Abbreviation SimpleTermData := ITermData (only parsing).

(** The interface [IQueryEnvironment] (iqueryenvironment.h), as far as this
    header overrides it. *)
Class IQueryEnvironment (E : Type) : Type := {
  getNumTerms : E -> nat;
  getTerm : E -> nat -> option ITermData;
  getProperties : E -> Properties;
  getLocation : E -> Location;
  getAttributeContext : E -> IAttributeContext;
  get_average_field_length : E -> string -> double;
  getIndexEnvironment : E -> IIndexEnvironment
}.

(** Modelled from the spec: the query environment that gets wrapped (the
    Query Environment Capability; its implementations are not part of the
    sources at hand).  It owns its terms in their natural order and knows
    properties, location, attribute context, index environment and the
    average field lengths.  [term(idx)] is the term at [idx], absent out of
    range. *)
Record QueryEnvironment : Type := mkQueryEnvironment {
  env_terms : list ITermData;
  env_properties : Properties;
  env_location : Location;
  env_attribute_context : IAttributeContext;
  env_average_field_length : string -> double;
  env_index_environment : IIndexEnvironment
}.

(** Modelled from the spec: how the wrapped environment answers the
    interface. *)
#[export] Instance QueryEnvironment_IQueryEnvironment :
  IQueryEnvironment QueryEnvironment := {|
  getNumTerms env := length (env_terms env);
  getTerm env idx := env_terms env !! idx;
  getProperties := env_properties;
  getLocation := env_location;
  getAttributeContext := env_attribute_context;
  get_average_field_length := env_average_field_length;
  getIndexEnvironment := env_index_environment
|}.

(** [struct TermIdx]: [idx] indexes either the query environment or the
    vector of our own term data; [splitted] tells which. *)
Record TermIdx : Type := mkTermIdx {
  idx : nat;
  splitted : bool
}.

(** [struct HowToCopy]. *)
Record HowToCopy : Type := mkHowToCopy {
  orig_handle : TermFieldHandle;
  split_handle : TermFieldHandle;
  offsetInPhrase : nat
}.

(** The data members of [class PhraseSplitterQueryEnv]. *)
Record PhraseSplitterQueryEnv : Type := mkPhraseSplitterQueryEnv {
  _queryEnv : QueryEnvironment;
  _terms : list SimpleTermData;
  _copyInfo : list HowToCopy;
  _termIdxMap : list TermIdx;
  _maxHandle : TermFieldHandle;
  _skipHandles : TermFieldHandle
}.

(** [uint32_t getNumTerms() const override { return _termIdxMap.size(); }] *)
Definition PhraseSplitterQueryEnv_getNumTerms
    (q : PhraseSplitterQueryEnv) : nat :=
  length (_termIdxMap q).

(** [const ITermData * getTerm(uint32_t idx) const override]: [None] is
    [nullptr].  [_terms[ti.idx]] past the end of [_terms] has no defined
    behaviour in the source; it reads as [None] here and
    [getTerm_splitted_in_range] shows that construction rules it out. *)
Definition PhraseSplitterQueryEnv_getTerm
    (q : PhraseSplitterQueryEnv) (i : nat) : option ITermData :=
  if bool_decide (length (_termIdxMap q) <= i) then None
  else
    match _termIdxMap q !! i with
    | Some ti =>
        if splitted ti then _terms q !! idx ti
        else getTerm (_queryEnv q) (idx ti)
    | None => None
    end.

#[export] Instance PhraseSplitterQueryEnv_IQueryEnvironment :
  IQueryEnvironment PhraseSplitterQueryEnv := {|
  getNumTerms := PhraseSplitterQueryEnv_getNumTerms;
  getTerm := PhraseSplitterQueryEnv_getTerm;
  getProperties q := getProperties (_queryEnv q);
  getLocation q := getLocation (_queryEnv q);
  getAttributeContext q := getAttributeContext (_queryEnv q);
  get_average_field_length q field_name :=
    get_average_field_length (_queryEnv q) field_name;
  getIndexEnvironment q := getIndexEnvironment (_queryEnv q)
|}.

(** *** The Splitter (construction) *)

(** Modelled from the spec: whether a term references the target field. *)
Definition references_field (fieldId : nat) (term : ITermData) : bool :=
  existsb (fun f => field_id f =? fieldId) (fields term).

(** Modelled from the spec: case 1 of the Splitter, "the term's sub-term
    count is 1, OR the term does not reference the target field". *)
Definition is_pass_through (fieldId : nat) (term : ITermData) : bool :=
  (sub_term_count term =? 1) || negb (references_field fieldId term).

(** Modelled from the spec: "scan all original terms once to find
    [max_handle]". *)
Definition max_handle (terms : list ITermData) : TermFieldHandle :=
  foldl (fun m term => m `max` handle term) 0 terms.

(** Modelled from the spec: the Synthesized Term of one sub-term, "cloning
    the phrase's field metadata restricted to that sub-term": a single term
    on the target field with a handle of its own. *)
Definition synthesized_term (fieldId : nat) (term : ITermData)
    (h : TermFieldHandle) : SimpleTermData :=
  {| sub_term_count := 1;
     fields := filter (fun f => field_id f = fieldId) (fields term);
     handle := h |}.

(** Modelled from the spec: the Handle Allocator.  Handles are handed out
    in sequence from [_skipHandles], one per synthesized term.  The sum is
    taken in [nat]: it is the handle a [TermFieldHandle] holds only while
    [_maxHandle + length _terms] stays below [2^32]. *)
Definition allocate_handle (q : PhraseSplitterQueryEnv) : TermFieldHandle :=
  _skipHandles q + length (_terms q).

(** Modelled from the spec: case 2 of the Splitter for sub-term position
    [k]: append the Synthesized Term, its map entry and its Propagation
    Instruction. *)
Definition split_sub_term (fieldId : nat) (term : ITermData)
    (q : PhraseSplitterQueryEnv) (k : nat) : PhraseSplitterQueryEnv :=
  let new_collection_index := length (_terms q) in
  let newly_allocated := allocate_handle q in
  {| _queryEnv := _queryEnv q;
     _terms := _terms q ++ [synthesized_term fieldId term newly_allocated];
     _copyInfo := _copyInfo q ++
       [{| orig_handle := handle term;
           split_handle := newly_allocated;
           offsetInPhrase := k |}];
     _termIdxMap := _termIdxMap q ++ [mkTermIdx new_collection_index true];
     _maxHandle := _maxHandle q;
     _skipHandles := _skipHandles q |}.

(** Modelled from the spec: [considerTerm] is declared in the header and
    defined elsewhere; this is the Splitter's step for the term at
    [termIdx].  (The header's scratch vector [phraseTerms] has no part in
    the spec's algorithm and is left out.) *)
Definition considerTerm (termIdx : nat) (term : ITermData) (fieldId : nat)
    (q : PhraseSplitterQueryEnv) : PhraseSplitterQueryEnv :=
  if is_pass_through fieldId term then
    {| _queryEnv := _queryEnv q;
       _terms := _terms q;
       _copyInfo := _copyInfo q;
       _termIdxMap := _termIdxMap q ++ [mkTermIdx termIdx false];
       _maxHandle := _maxHandle q;
       _skipHandles := _skipHandles q |}
  else
    foldl (split_sub_term fieldId term) q (seq 0 (sub_term_count term)).

(** Modelled from the spec: "for each term index [i] in the wrapped
    environment's natural order", from index [termIdx] on. *)
Fixpoint considerTerms (termIdx : nat) (terms : list ITermData)
    (fieldId : nat) (q : PhraseSplitterQueryEnv) : PhraseSplitterQueryEnv :=
  match terms with
  | [] => q
  | term :: rest =>
      considerTerms (S termIdx) rest fieldId
        (considerTerm termIdx term fieldId q)
  end.

(** Modelled from the spec: the constructor
    [PhraseSplitterQueryEnv(const IQueryEnvironment & queryEnv,
    uint32_t fieldId)] is declared in the header and defined elsewhere.
    First the scan for the largest original handle, then one pass over the
    terms.  [_skipHandles], "how many handles to skip", is the number of
    handles up to and including [_maxHandle]. *)
Definition PhraseSplitterQueryEnv_new (queryEnv : QueryEnvironment)
    (fieldId : nat) : PhraseSplitterQueryEnv :=
  let m := max_handle (env_terms queryEnv) in
  considerTerms 0 (env_terms queryEnv) fieldId
    {| _queryEnv := queryEnv;
       _terms := [];
       _copyInfo := [];
       _termIdxMap := [];
       _maxHandle := m;
       _skipHandles := m + 1 |}.

(** *** The Match-Data Bridge *)

(** Modelled from the spec: the bound match data, "keyed by handle, each
    entry holding an ordered list of occurrence positions plus
    field/element/weight metadata". *)
Record Occurrence : Type := mkOccurrence {
  position : nat;
  element_id : nat;
  element_weight : Z
}.

(** Modelled from the spec: one entry of the bound match data. *)
Record TermFieldMatchData : Type := mkTermFieldMatchData {
  md_field_id : nat;
  occurrences : list Occurrence
}.

(** Modelled from the spec: step 2 of the bridge, "adding
    [offset_in_phrase] to every position in that list". *)
Definition reposition (offset : nat) (e : TermFieldMatchData)
    : TermFieldMatchData :=
  {| md_field_id := md_field_id e;
     occurrences :=
       map (fun o => {| position := position o + offset;
                        element_id := element_id o;
                        element_weight := element_weight o |})
           (occurrences e) |}.

(** Modelled from the spec: one Propagation Instruction: fetch under
    [orig_handle], reposition, store under [split_handle].  Nothing is
    stored when the original handle is not bound. *)
Definition copy_term_field (md : gmap nat TermFieldMatchData)
    (ci : HowToCopy) : gmap nat TermFieldMatchData :=
  match md !! orig_handle ci with
  | Some e => <[split_handle ci := reposition (offsetInPhrase ci) e]> md
  | None => md
  end.

(** Modelled from the spec: the update operation, run once per document
    on the bound match data; it is not part of the sources at hand. *)
Definition update (q : PhraseSplitterQueryEnv)
    (md : gmap nat TermFieldMatchData) : gmap nat TermFieldMatchData :=
  foldl copy_term_field md (_copyInfo q).

(** *** The facade as an object

    Every member function of the header is [const]: a call answers and
    leaves the object as it was.  [OpUpdate] is the update operation on the
    bound match data. *)
Inductive Operation : Type :=
| OpGetNumTerms
| OpGetTerm (i : nat)
| OpGetProperties
| OpGetLocation
| OpGetAttributeContext
| OpGetAverageFieldLength (field_name : string)
| OpGetIndexEnvironment
| OpUpdate (md : gmap nat TermFieldMatchData).

Inductive Answer : Type :=
| NumTerms (n : nat)
| Term (t : option ITermData)
| TheProperties (p : Properties)
| TheLocation (l : Location)
| TheAttributeContext (c : IAttributeContext)
| AverageFieldLength (x : double)
| TheIndexEnvironment (e : IIndexEnvironment)
| Updated (md : gmap nat TermFieldMatchData).

Definition perform (op : Operation) (q : PhraseSplitterQueryEnv)
    : PhraseSplitterQueryEnv * Answer :=
  match op with
  | OpGetNumTerms => (q, NumTerms (getNumTerms q))
  | OpGetTerm i => (q, Term (getTerm q i))
  | OpGetProperties => (q, TheProperties (getProperties q))
  | OpGetLocation => (q, TheLocation (getLocation q))
  | OpGetAttributeContext =>
      (q, TheAttributeContext (getAttributeContext q))
  | OpGetAverageFieldLength field_name =>
      (q, AverageFieldLength (get_average_field_length q field_name))
  | OpGetIndexEnvironment =>
      (q, TheIndexEnvironment (getIndexEnvironment q))
  | OpUpdate md => (q, Updated (update q md))
  end.

(** A sequence of calls on one facade, first to last. *)
Definition perform_all (ops : list Operation) (q : PhraseSplitterQueryEnv)
    : PhraseSplitterQueryEnv :=
  foldl (fun q op => fst (perform op q)) q ops.

(** *** Counting public slots *)

(** A split phrase, in the words of the specification: a multi-sub-term
    phrase that references the target field. *)
Definition is_split_phrase (fieldId : nat) (term : ITermData) : bool :=
  (1 <? sub_term_count term) && references_field fieldId term.

(** The number of public slots the term at hand gets. *)
Definition slot_width (fieldId : nat) (term : ITermData) : nat :=
  if is_pass_through fieldId term then 1 else sub_term_count term.

(** The number of synthesized terms the term at hand gets. *)
Definition split_width (fieldId : nat) (term : ITermData) : nat :=
  if is_pass_through fieldId term then 0 else sub_term_count term.

(** The public slot at which the original term [i] starts: the slots of
    the terms before it. *)
Definition public_slot (fieldId : nat) (terms : list ITermData) (i : nat)
    : nat :=
  sum_list (slot_width fieldId <$> take i terms).

(** The number of synthesized terms made for the terms before [i]. *)
Definition synthesized_before (fieldId : nat) (terms : list ITermData)
    (i : nat) : nat :=
  sum_list (split_width fieldId <$> take i terms).

Definition pass_through_count (fieldId : nat) (terms : list ITermData)
    : nat :=
  length (filter (fun t => is_pass_through fieldId t) terms).

Definition split_sub_term_total (fieldId : nat) (terms : list ITermData)
    : nat :=
  sum_list (sub_term_count <$>
            filter (fun t => is_split_phrase fieldId t) terms).

(** *** What construction establishes

    The instructions and the synthesized terms go in step, the [c]-th of
    them carries the [c]-th handle after [_skipHandles], original handles
    stay at or below [_maxHandle], and every map entry points into the
    vector it names. *)
Definition consistent (q : PhraseSplitterQueryEnv) : Prop :=
  length (_copyInfo q) = length (_terms q) /\
  (forall c ci, _copyInfo q !! c = Some ci ->
     split_handle ci = _skipHandles q + c /\
     orig_handle ci <= _maxHandle q) /\
  (forall c s, _terms q !! c = Some s -> handle s = _skipHandles q + c) /\
  (forall j ti, _termIdxMap q !! j = Some ti ->
     if splitted ti then idx ti < length (_terms q)
     else idx ti < getNumTerms (_queryEnv q)).

End QueryEnvironment.

End fef.

(** ** The scenario of the specification

    Target field 3; [term0] is a phrase of three sub-terms on field 3,
    [term1] a single term on field 5; [term0] occurs at positions 5 and 9
    of the document. *)

Module scenario.
Import fef.

Definition term0 : @ITermData unit := mkTermData 3 [mkFieldReference 3 tt] 0.
Definition term1 : @ITermData unit := mkTermData 1 [mkFieldReference 5 tt] 1.

Definition wrapped : @QueryEnvironment unit unit unit unit Z unit :=
  mkQueryEnvironment [term0; term1] tt tt tt (fun _ => 0%Z) tt.

Definition facade : @PhraseSplitterQueryEnv unit unit unit unit Z unit :=
  PhraseSplitterQueryEnv_new wrapped 3.

Definition bound : gmap nat TermFieldMatchData :=
  {[ 0 := mkTermFieldMatchData 3 [mkOccurrence 5 0 1; mkOccurrence 9 0 1] ]}.

(** An environment whose terms share a handle. *)
Definition wrapped_duplicates
    : @QueryEnvironment unit unit unit unit Z unit :=
  mkQueryEnvironment
    [mkTermData 2 [mkFieldReference 3 tt] 7;
     mkTermData 1 [mkFieldReference 3 tt] 7;
     mkTermData 2 [mkFieldReference 3 tt] 2]
    tt tt tt (fun _ => 0%Z) tt.
End scenario.

(** * Properties *)

(** ** [roundUp2inN] *)

Module roundUp2inN_facts.
Import vespalib.
Local Open Scope Z_scope.

(** [msbIdx] is the index of the most significant set bit. *)
Lemma msbIdx_bounds v : 0 < v -> 2 ^ msbIdx v <= v < 2 ^ (msbIdx v + 1).
Proof.
  intros Hv. unfold msbIdx.
  pose proof (Z.log2_spec v Hv) as H.
  replace (Z.succ (Z.log2 v)) with (Z.log2 v + 1) in H by lia. exact H.
Qed.

Lemma msbIdx_testbit v :
  0 < v ->
  Z.testbit v (msbIdx v) = true /\
  forall i, msbIdx v < i -> Z.testbit v i = false.
Proof.
  intros Hv. unfold msbIdx. split.
  - apply Z.bit_log2. exact Hv.
  - intros i Hi. apply Z.bits_above_log2; lia.
Qed.

Lemma msbIdx_zero : msbIdx 0 = 0.
Proof. reflexivity. Qed.

Lemma msbIdx_size_t v : is_size_t v -> 0 <= msbIdx v <= 63.
Proof.
  unfold is_size_t, size_t_bits, msbIdx. intros [H0 H1]. split.
  - apply Z.log2_nonneg.
  - destruct (Z.eq_dec v 0) as [->|Hne]; [cbn; lia|].
    assert (Z.log2 v < 64); [|lia].
    apply Z.log2_lt_pow2; lia.
Qed.

Lemma shiftl_2 n : 0 <= n -> Z.shiftl 2 n = 2 ^ (n + 1).
Proof.
  intros Hn. rewrite Z.shiftl_mul_pow2 by exact Hn.
  rewrite Z.pow_add_r by lia. lia.
Qed.

Lemma roundUp2inN_unfold minimum :
  1 <= minimum < 2 ^ 64 ->
  roundUp2inN minimum = (2 ^ (Z.log2 (minimum - 1) + 1)) mod 2 ^ 64.
Proof.
  intros Hm. unfold roundUp2inN, size_t_wrap, size_t_bits, msbIdx.
  rewrite (Z.mod_small (minimum - 1)) by lia.
  rewrite shiftl_2 by apply Z.log2_nonneg. reflexivity.
Qed.

Lemma roundUp2inN_small minimum :
  2 <= minimum <= 2 ^ 63 ->
  roundUp2inN minimum = 2 ^ (Z.log2 (minimum - 1) + 1).
Proof.
  intros Hm. rewrite roundUp2inN_unfold by lia.
  apply Z.mod_small.
  assert (Z.log2 (minimum - 1) < 63) by (apply Z.log2_lt_pow2; lia).
  pose proof (Z.log2_nonneg (minimum - 1)).
  split; [apply Z.pow_nonneg; lia|].
  apply Z.pow_lt_mono_r; lia.
Qed.

Lemma roundUp2inN_large minimum :
  2 ^ 63 < minimum < 2 ^ 64 -> roundUp2inN minimum = 0.
Proof.
  intros Hm. rewrite roundUp2inN_unfold by lia.
  assert (Z.log2 (minimum - 1) = 63) as ->.
  { apply Z.log2_unique; lia. }
  reflexivity.
Qed.

Lemma power_of_two_gt n p :
  0 <= n -> is_power_of_two p -> 2 ^ n < p -> 2 ^ (n + 1) <= p.
Proof.
  intros Hn [m [Hm ->]] Hlt.
  assert (n < m) by (apply (Z.pow_lt_mono_r_iff 2); lia).
  apply Z.pow_le_mono_r; lia.
Qed.

(** C9, as the code has it: for every [size_t] [minimum] from 2 up to
    [2^63], [roundUp2inN minimum] is the smallest power of two that is
    greater than or equal to [minimum]; for [minimum = 1] it is 2 and not 1;
    above [2^63], where no such power fits in a [size_t], it is 0. *)
Theorem roundUp2inN_smallest_power_of_two (minimum : Z) :
  (2 <= minimum <= 2 ^ 63 ->
     smallest_power_of_two_geq minimum (roundUp2inN minimum)) /\
  (2 ^ 63 < minimum < 2 ^ 64 -> roundUp2inN minimum = 0) /\
  roundUp2inN 1 = 2 /\ smallest_power_of_two_geq 1 1.
Proof.
  split; [|split; [apply roundUp2inN_large|split]].
  - intros Hm. rewrite roundUp2inN_small by exact Hm.
    pose proof (Z.log2_nonneg (minimum - 1)) as Hn.
    pose proof (Z.log2_spec (minimum - 1) ltac:(lia)) as [Hlo Hhi].
    replace (Z.succ (Z.log2 (minimum - 1)))
      with (Z.log2 (minimum - 1) + 1) in Hhi by lia.
    split; [|split].
    + exists (Z.log2 (minimum - 1) + 1). split; [lia|reflexivity].
    + lia.
    + intros p Hp Hle. apply power_of_two_gt; [exact Hn|exact Hp|lia].
  - reflexivity.
  - split; [|split].
    + exists 0. split; [lia|reflexivity].
    + lia.
    + intros p [m [Hm ->]] _.
      change 1 with (2 ^ 0). apply Z.pow_le_mono_r; lia.
Qed.

Example roundUp2inN_values :
  roundUp2inN <$> [0; 1; 2; 3; 4; 5; 1000; 2 ^ 63; 2 ^ 64 - 1]
  = [0; 2; 2; 4; 4; 8; 1024; 2 ^ 63; 0].
Proof. reflexivity. Qed.

Lemma roundUp2inN_smallest_power_of_two_witness :
  smallest_power_of_two_geq 5 (roundUp2inN 5) /\ roundUp2inN 5 = 8.
Proof.
  split; [|reflexivity].
  apply (proj1 (roundUp2inN_smallest_power_of_two 5)). lia.
Defined.

(** C9 as stated fails above [2^63]: [roundUp2inN (2^63 + 1)] is 0, which is
    neither a power of two nor at least [2^63 + 1]. *)
Lemma roundUp2inN_above_half_range :
  2 <= 2 ^ 63 + 1 < 2 ^ 64 /\
  roundUp2inN (2 ^ 63 + 1) = 0 /\
  ~ smallest_power_of_two_geq (2 ^ 63 + 1) (roundUp2inN (2 ^ 63 + 1)).
Proof.
  split; [lia|]. split; [reflexivity|].
  intros [_ [Hle _]]. vm_compute in Hle. apply Hle. reflexivity.
Qed.

End roundUp2inN_facts.

(** ** [Alloc] *)

Module Alloc_facts.
Import alloc.
Local Open Scope Z_scope.

Lemma clear_is_empty a : is_empty (clear a).
Proof. unfold is_empty, clear, get, size. cbn. auto. Qed.

Lemma Alloc_default_is_empty : is_empty Alloc_default.
Proof. unfold is_empty, Alloc_default, get, size. cbn. auto. Qed.

Lemma Alloc_move_takes_over rhs :
  get (fst (Alloc_move rhs)) = get rhs /\
  size (fst (Alloc_move rhs)) = size rhs /\
  _allocator (fst (Alloc_move rhs)) = _allocator rhs.
Proof. unfold Alloc_move, get, size. cbn. auto. Qed.

Lemma create_zero Alloc_sized this :
  create Alloc_sized this 0 = Alloc_of_allocator (_allocator this).
Proof. reflexivity. Qed.

Lemma swap_swap a b : swap (fst (swap a b)) (snd (swap a b)) = (a, b).
Proof. destruct a, b. reflexivity. Qed.

(** C10: after a move construction or a move assignment the moved-from
    [Alloc] is empty ([get() == nullptr], [size() == 0], null allocator) and
    the destination holds what the source held; [create(0)] gives an
    allocation with [get() == nullptr] and [size() == 0] that keeps the
    allocation strategy of the [Alloc] it was asked of. *)
Theorem moved_from_is_empty (Alloc_sized : pointer -> Z -> Alloc)
    (this rhs : Alloc) :
  (is_empty (snd (Alloc_move rhs)) /\
   fst (Alloc_move rhs) = rhs) /\
  (is_empty (snd (Alloc_move_assign this rhs)) /\
   fst (Alloc_move_assign this rhs) = rhs) /\
  (get (create Alloc_sized this 0) = nullptr /\
   size (create Alloc_sized this 0) = 0 /\
   _allocator (create Alloc_sized this 0) = _allocator this).
Proof.
  split; [|split].
  - split; [apply clear_is_empty|]. destruct rhs. reflexivity.
  - split; [apply clear_is_empty|]. destruct rhs. reflexivity.
  - rewrite create_zero. unfold Alloc_of_allocator, get, size. cbn. auto.
Qed.

End Alloc_facts.

(** ** [PhraseSplitterQueryEnv] *)

Module PhraseSplitter_facts.
Import fef.

Section Facts.
Context {Properties Location IAttributeContext IIndexEnvironment : Type}.
Context {double FieldMetadata : Type}.

Local Abbreviation Env :=
  (@QueryEnvironment Properties Location IAttributeContext
     IIndexEnvironment double FieldMetadata).
Local Abbreviation Facade :=
  (@PhraseSplitterQueryEnv Properties Location IAttributeContext
     IIndexEnvironment double FieldMetadata).
Local Abbreviation TermData := (@ITermData FieldMetadata).

Implicit Types (q : Facade) (env : Env) (term t : TermData).
Implicit Types (terms ts : list TermData).
Implicit Types (md : gmap nat TermFieldMatchData) (ci : HowToCopy).

(** A lookup that a hypothesis answers up to arithmetic on the index and
    inside the element. *)
Ltac by_lookup :=
  match goal with
  | H : ?l !! ?b = Some _ |- ?l !! ?a = Some _ =>
      replace a with b by lia; rewrite H; do 2 f_equal; lia
  end.

(** *** The Splitter, one term at a time *)

Lemma split_sub_terms_fold fieldId term n : forall q a,
  foldl (split_sub_term fieldId term) q (seq a n) =
  {| _queryEnv := _queryEnv q;
     _terms := _terms q ++
       ((fun j => synthesized_term fieldId term
                    (_skipHandles q + length (_terms q) + j)) <$> seq 0 n);
     _copyInfo := _copyInfo q ++
       ((fun j => mkHowToCopy (handle term)
                    (_skipHandles q + length (_terms q) + j) (a + j))
          <$> seq 0 n);
     _termIdxMap := _termIdxMap q ++
       ((fun j => mkTermIdx (length (_terms q) + j) true) <$> seq 0 n);
     _maxHandle := _maxHandle q;
     _skipHandles := _skipHandles q |}.
Proof.
  induction n as [|n IH]; intros q a.
  - cbn. rewrite !app_nil_r. destruct q; reflexivity.
  - cbn [seq foldl]. rewrite IH. unfold split_sub_term, allocate_handle.
    cbn [_queryEnv _terms _copyInfo _termIdxMap _maxHandle _skipHandles].
    rewrite <- !(fmap_S_seq 0). cbn [fmap list_fmap].
    rewrite <- !list_fmap_compose, <- !app_assoc, length_app.
    cbn [length app].
    f_equal.
    + do 2 f_equal; [f_equal; lia|].
      apply list_fmap_ext. intros _ j _. cbn. f_equal. lia.
    + do 2 f_equal; [f_equal; lia|].
      apply list_fmap_ext. intros _ j _. cbn. f_equal; lia.
    + do 2 f_equal; [f_equal; lia|].
      apply list_fmap_ext. intros _ j _. cbn. f_equal; lia.
Qed.

Lemma considerTerm_pass_through i term fieldId q :
  is_pass_through fieldId term = true ->
  considerTerm i term fieldId q =
  {| _queryEnv := _queryEnv q;
     _terms := _terms q;
     _copyInfo := _copyInfo q;
     _termIdxMap := _termIdxMap q ++ [mkTermIdx i false];
     _maxHandle := _maxHandle q;
     _skipHandles := _skipHandles q |}.
Proof. intros H. unfold considerTerm. rewrite H. reflexivity. Qed.

Lemma considerTerm_split i term fieldId q :
  is_pass_through fieldId term = false ->
  considerTerm i term fieldId q =
  {| _queryEnv := _queryEnv q;
     _terms := _terms q ++
       ((fun j => synthesized_term fieldId term
                    (_skipHandles q + length (_terms q) + j))
          <$> seq 0 (sub_term_count term));
     _copyInfo := _copyInfo q ++
       ((fun j => mkHowToCopy (handle term)
                    (_skipHandles q + length (_terms q) + j) j)
          <$> seq 0 (sub_term_count term));
     _termIdxMap := _termIdxMap q ++
       ((fun j => mkTermIdx (length (_terms q) + j) true)
          <$> seq 0 (sub_term_count term));
     _maxHandle := _maxHandle q;
     _skipHandles := _skipHandles q |}.
Proof.
  intros H. unfold considerTerm. rewrite H.
  apply split_sub_terms_fold.
Qed.

(** What one step leaves alone, and by how much it extends the vectors. *)
Lemma considerTerm_frame i term fieldId q :
  _queryEnv (considerTerm i term fieldId q) = _queryEnv q /\
  _maxHandle (considerTerm i term fieldId q) = _maxHandle q /\
  _skipHandles (considerTerm i term fieldId q) = _skipHandles q.
Proof.
  destruct (is_pass_through fieldId term) eqn:H.
  - rewrite considerTerm_pass_through by exact H. auto.
  - rewrite considerTerm_split by exact H. auto.
Qed.

Lemma considerTerm_lengths i term fieldId q :
  length (_termIdxMap (considerTerm i term fieldId q)) =
    length (_termIdxMap q) + slot_width fieldId term /\
  length (_terms (considerTerm i term fieldId q)) =
    length (_terms q) + split_width fieldId term /\
  length (_copyInfo (considerTerm i term fieldId q)) =
    length (_copyInfo q) + split_width fieldId term.
Proof.
  unfold slot_width, split_width.
  destruct (is_pass_through fieldId term) eqn:H.
  - rewrite considerTerm_pass_through by exact H. cbn.
    rewrite length_app. cbn. lia.
  - rewrite considerTerm_split by exact H. cbn.
    rewrite !length_app, !length_fmap, !length_seq. auto.
Qed.

Lemma considerTerm_prefix i term fieldId q :
  _termIdxMap q `prefix_of` _termIdxMap (considerTerm i term fieldId q) /\
  _terms q `prefix_of` _terms (considerTerm i term fieldId q) /\
  _copyInfo q `prefix_of` _copyInfo (considerTerm i term fieldId q).
Proof.
  destruct (is_pass_through fieldId term) eqn:H.
  - rewrite considerTerm_pass_through by exact H. cbn.
    split; [apply prefix_app_r; done|split; done].
  - rewrite considerTerm_split by exact H. cbn.
    repeat split; apply prefix_app_r; done.
Qed.

(** *** The Splitter, over the whole term list *)

Lemma considerTerms_frame fieldId : forall ts i q,
  _queryEnv (considerTerms i ts fieldId q) = _queryEnv q /\
  _maxHandle (considerTerms i ts fieldId q) = _maxHandle q /\
  _skipHandles (considerTerms i ts fieldId q) = _skipHandles q.
Proof.
  induction ts as [|t ts IH]; intros i q; cbn [considerTerms]; [auto|].
  destruct (IH (S i) (considerTerm i t fieldId q)) as (-> & -> & ->).
  apply considerTerm_frame.
Qed.

Lemma considerTerms_lengths fieldId : forall ts i q,
  length (_termIdxMap (considerTerms i ts fieldId q)) =
    length (_termIdxMap q) + sum_list (slot_width fieldId <$> ts) /\
  length (_terms (considerTerms i ts fieldId q)) =
    length (_terms q) + sum_list (split_width fieldId <$> ts) /\
  length (_copyInfo (considerTerms i ts fieldId q)) =
    length (_copyInfo q) + sum_list (split_width fieldId <$> ts).
Proof.
  induction ts as [|t ts IH]; intros i q; cbn [considerTerms].
  - cbn. lia.
  - destruct (IH (S i) (considerTerm i t fieldId q)) as (-> & -> & ->).
    destruct (considerTerm_lengths i t fieldId q) as (-> & -> & ->).
    cbn. lia.
Qed.

Lemma considerTerms_prefix fieldId : forall ts i q,
  _termIdxMap q `prefix_of` _termIdxMap (considerTerms i ts fieldId q) /\
  _terms q `prefix_of` _terms (considerTerms i ts fieldId q) /\
  _copyInfo q `prefix_of` _copyInfo (considerTerms i ts fieldId q).
Proof.
  induction ts as [|t ts IH]; intros i q; cbn [considerTerms]; [done|].
  destruct (IH (S i) (considerTerm i t fieldId q)) as (H1 & H2 & H3).
  destruct (considerTerm_prefix i t fieldId q) as (G1 & G2 & G3).
  repeat split; etrans; eassumption.
Qed.

Lemma lookup_block {A} (l : list A) (g : nat -> A) n k :
  k < n -> (l ++ (g <$> seq 0 n)) !! (length l + k) = Some (g k).
Proof.
  intros Hk. rewrite lookup_app_r by lia.
  replace (length l + k - length l) with k by lia.
  rewrite list_lookup_fmap, lookup_seq_lt by exact Hk. reflexivity.
Qed.

Lemma public_slot_cons fieldId t ts i :
  public_slot fieldId (t :: ts) (S i) =
  slot_width fieldId t + public_slot fieldId ts i.
Proof. reflexivity. Qed.

Lemma synthesized_before_cons fieldId t ts i :
  synthesized_before fieldId (t :: ts) (S i) =
  split_width fieldId t + synthesized_before fieldId ts i.
Proof. reflexivity. Qed.

(** Where the entries of the term at [i] end up. *)
Lemma considerTerms_lookup fieldId : forall ts i0 q i t,
  ts !! i = Some t ->
  (is_pass_through fieldId t = true ->
     _termIdxMap (considerTerms i0 ts fieldId q)
       !! (length (_termIdxMap q) + public_slot fieldId ts i)
     = Some (mkTermIdx (i0 + i) false)) /\
  (is_pass_through fieldId t = false ->
     forall k, k < sub_term_count t ->
     let c := length (_terms q) + synthesized_before fieldId ts i + k in
     _termIdxMap (considerTerms i0 ts fieldId q)
       !! (length (_termIdxMap q) + public_slot fieldId ts i + k)
     = Some (mkTermIdx c true) /\
     _terms (considerTerms i0 ts fieldId q) !! c
     = Some (synthesized_term fieldId t (_skipHandles q + c)) /\
     _copyInfo (considerTerms i0 ts fieldId q)
       !! (length (_copyInfo q) + synthesized_before fieldId ts i + k)
     = Some (mkHowToCopy (handle t) (_skipHandles q + c) k)).
Proof.
  induction ts as [|t0 ts IH]; intros i0 q i t Hi; [done|].
  cbn [considerTerms].
  destruct (considerTerms_prefix fieldId ts (S i0)
              (considerTerm i0 t0 fieldId q)) as (P1 & P2 & P3).
  destruct i as [|i].
  - injection Hi as ->.
    unfold public_slot, synthesized_before. cbn [take fmap list_fmap sum_list].
    split.
    + intros Hp. eapply prefix_lookup_Some; [|exact P1].
      rewrite considerTerm_pass_through by exact Hp. cbn.
      rewrite Nat.add_0_r, lookup_app_r, Nat.sub_diag by lia.
      rewrite Nat.add_0_r. reflexivity.
    + intros Hp k Hk. cbn zeta. rewrite !Nat.add_0_r.
      repeat split.
      * eapply prefix_lookup_Some; [|exact P1].
        rewrite considerTerm_split by exact Hp. cbn.
        apply (lookup_block _ (fun j => mkTermIdx (length (_terms q) + j) true)).
        exact Hk.
      * eapply prefix_lookup_Some; [|exact P2].
        rewrite considerTerm_split by exact Hp. cbn.
        rewrite Nat.add_assoc.
        apply (lookup_block _
                 (fun j => synthesized_term fieldId t
                             (_skipHandles q + length (_terms q) + j))).
        exact Hk.
      * eapply prefix_lookup_Some; [|exact P3].
        rewrite considerTerm_split by exact Hp. cbn.
        rewrite Nat.add_assoc.
        apply (lookup_block _
                 (fun j => mkHowToCopy (handle t)
                             (_skipHandles q + length (_terms q) + j) j)).
        exact Hk.
  - cbn in Hi.
    destruct (IH (S i0) (considerTerm i0 t0 fieldId q) i t Hi) as [Hpass Hsplit].
    destruct (considerTerm_lengths i0 t0 fieldId q) as (L1 & L2 & L3).
    destruct (considerTerm_frame i0 t0 fieldId q) as (_ & _ & F3).
    rewrite public_slot_cons, synthesized_before_cons.
    rewrite L1, L2, L3, F3 in *.
    split.
    + intros Hp. rewrite Nat.add_assoc, <- Nat.add_succ_comm.
      apply Hpass, Hp.
    + intros Hp k Hk. cbn zeta.
      destruct (Hsplit Hp k Hk) as (A & B & C).
      repeat split; by_lookup.
Qed.

(** *** Consistency of what the Splitter builds *)

Lemma lookup_block_inv {A} (l : list A) (g : nat -> A) n c x :
  (l ++ (g <$> seq 0 n)) !! c = Some x ->
  l !! c = Some x \/ exists j, j < n /\ c = length l + j /\ x = g j.
Proof.
  intros H. apply lookup_app_Some in H as [H|[Hle H]]; [by left|right].
  apply list_lookup_fmap_Some in H as (j & -> & Hj).
  apply lookup_seq in Hj as [Hj Hlt].
  exists j. split; [lia|]. split; [lia|reflexivity].
Qed.

Lemma considerTerm_consistent i term fieldId q :
  consistent q ->
  i < getNumTerms (_queryEnv q) ->
  handle term <= _maxHandle q ->
  consistent (considerTerm i term fieldId q).
Proof.
  intros (Hlen & Hcopy & Hterm & Hmap) Hi Hh.
  destruct (is_pass_through fieldId term) eqn:Hp.
  - rewrite considerTerm_pass_through by exact Hp.
    unfold consistent. cbn [_queryEnv _terms _copyInfo _termIdxMap
                             _maxHandle _skipHandles].
    split; [exact Hlen|]. split; [exact Hcopy|]. split; [exact Hterm|].
    intros j ti Hj.
    apply lookup_app_Some in Hj as [Hj|[_ Hj]]; [exact (Hmap j ti Hj)|].
    apply list_lookup_singleton_Some in Hj as [_ <-]. exact Hi.
  - rewrite considerTerm_split by exact Hp.
    unfold consistent. cbn [_queryEnv _terms _copyInfo _termIdxMap
                             _maxHandle _skipHandles].
    split; [|split; [|split]].
    + rewrite !length_app, !length_fmap. lia.
    + intros c ci Hc.
      apply lookup_block_inv in Hc as [Hc|(j & Hj & -> & ->)]; [eauto|].
      cbn. split; lia.
    + intros c s Hc.
      apply lookup_block_inv in Hc as [Hc|(j & Hj & -> & ->)]; [eauto|].
      cbn. lia.
    + intros j ti Hj. rewrite length_app, length_fmap, length_seq.
      apply lookup_block_inv in Hj as [Hj|(k & Hk & -> & ->)].
      * specialize (Hmap j ti Hj). destruct (splitted ti); [lia|exact Hmap].
      * cbn. lia.
Qed.

Lemma considerTerms_consistent fieldId : forall ts i q,
  consistent q ->
  i + length ts <= getNumTerms (_queryEnv q) ->
  Forall (fun t => handle t <= _maxHandle q) ts ->
  consistent (considerTerms i ts fieldId q).
Proof.
  induction ts as [|t ts IH]; intros i q Hq Hi Hh; cbn [considerTerms];
    [exact Hq|].
  apply Forall_cons in Hh as [Ht Hh]. cbn [length] in Hi.
  destruct (considerTerm_frame i t fieldId q) as (F1 & F2 & _).
  apply IH.
  - apply considerTerm_consistent; [exact Hq|lia|exact Ht].
  - rewrite F1. lia.
  - rewrite F2. exact Hh.
Qed.

(** *** The largest original handle *)

Lemma foldl_max_handle_bound ts : forall m,
  m <= foldl (fun m t => m `max` handle t) m ts /\
  Forall (fun t : TermData =>
            handle t <= foldl (fun m t => m `max` handle t) m ts) ts.
Proof.
  induction ts as [|t ts IH]; intros m; cbn [foldl]; [split; [lia|constructor]|].
  destruct (IH (m `max` handle t)) as [H1 H2].
  split; [lia|]. constructor; [lia|exact H2].
Qed.

Lemma max_handle_upper_bound ts :
  Forall (fun t => handle t <= max_handle ts) ts.
Proof. apply foldl_max_handle_bound. Qed.

Lemma foldl_max_handle_least ts : forall m b,
  m <= b -> Forall (fun t : TermData => handle t <= b) ts ->
  foldl (fun m t => m `max` handle t) m ts <= b.
Proof.
  induction ts as [|t ts IH]; intros m b Hm Hb; cbn [foldl]; [exact Hm|].
  apply Forall_cons in Hb as [Ht Hb]. apply IH; [lia|exact Hb].
Qed.

Lemma max_handle_least ts b :
  Forall (fun t => handle t <= b) ts -> max_handle ts <= b.
Proof. apply foldl_max_handle_least. lia. Qed.

(** *** The constructed facade *)

Lemma new_frame env fieldId :
  _queryEnv (PhraseSplitterQueryEnv_new env fieldId) = env /\
  _maxHandle (PhraseSplitterQueryEnv_new env fieldId)
    = max_handle (env_terms env) /\
  _skipHandles (PhraseSplitterQueryEnv_new env fieldId)
    = max_handle (env_terms env) + 1.
Proof.
  unfold PhraseSplitterQueryEnv_new.
  match goal with
  | |- context [considerTerms 0 ?ts ?f ?q0] =>
      destruct (considerTerms_frame f ts 0 q0) as (-> & -> & ->)
  end.
  auto.
Qed.

Lemma new_consistent env fieldId :
  consistent (PhraseSplitterQueryEnv_new env fieldId).
Proof.
  unfold PhraseSplitterQueryEnv_new. apply considerTerms_consistent.
  - unfold consistent. cbn. split; [done|]. split; [|split]; intros ? ? Hx; done.
  - cbn. lia.
  - cbn. apply max_handle_upper_bound.
Qed.

Lemma new_lengths env fieldId :
  length (_termIdxMap (PhraseSplitterQueryEnv_new env fieldId))
    = sum_list (slot_width fieldId <$> env_terms env) /\
  length (_terms (PhraseSplitterQueryEnv_new env fieldId))
    = sum_list (split_width fieldId <$> env_terms env) /\
  length (_copyInfo (PhraseSplitterQueryEnv_new env fieldId))
    = sum_list (split_width fieldId <$> env_terms env).
Proof.
  unfold PhraseSplitterQueryEnv_new.
  match goal with
  | |- context [considerTerms 0 ?ts ?f ?q0] =>
      destruct (considerTerms_lengths f ts 0 q0) as (-> & -> & ->)
  end.
  auto.
Qed.

Lemma new_lookup env fieldId i t :
  env_terms env !! i = Some t ->
  let q := PhraseSplitterQueryEnv_new env fieldId in
  (is_pass_through fieldId t = true ->
     _termIdxMap q !! public_slot fieldId (env_terms env) i
     = Some (mkTermIdx i false)) /\
  (is_pass_through fieldId t = false ->
     forall k, k < sub_term_count t ->
     let c := synthesized_before fieldId (env_terms env) i + k in
     _termIdxMap q !! (public_slot fieldId (env_terms env) i + k)
     = Some (mkTermIdx c true) /\
     _terms q !! c
     = Some (synthesized_term fieldId t (_skipHandles q + c)) /\
     _copyInfo q !! c
     = Some (mkHowToCopy (handle t) (_skipHandles q + c) k)).
Proof.
  intros Hi q.
  destruct (new_frame env fieldId) as (_ & _ & Hskip).
  fold q in Hskip. rewrite Hskip. subst q.
  unfold PhraseSplitterQueryEnv_new.
  match goal with
  | |- context [considerTerms 0 ?ts ?f ?q0] =>
      destruct (considerTerms_lookup f ts 0 q0 i t Hi) as [Hpass Hsplit]
  end.
  cbn [_queryEnv _terms _copyInfo _termIdxMap _maxHandle _skipHandles
       length] in Hpass, Hsplit.
  split.
  - intros Hp. apply Hpass, Hp.
  - intros Hp k Hk. apply (Hsplit Hp k Hk).
Qed.

(** *** The Match-Data Bridge over a list of instructions

    [numbered s l]: the [c]-th instruction of [l] stores under handle
    [s + c] and reads below [s]. *)

Lemma copy_term_field_other md ci h :
  split_handle ci <> h -> copy_term_field md ci !! h = md !! h.
Proof.
  intros Hne. unfold copy_term_field.
  destruct (md !! orig_handle ci); [|reflexivity].
  apply lookup_insert_ne, Hne.
Qed.

Lemma copy_term_field_stored md ci e :
  md !! orig_handle ci = Some e ->
  copy_term_field md ci !! split_handle ci
  = Some (reposition (offsetInPhrase ci) e).
Proof.
  intros He. unfold copy_term_field. rewrite He. apply lookup_insert_eq.
Qed.

Lemma bridge_other (l : list HowToCopy) h : forall md,
  Forall (fun ci => split_handle ci <> h) l ->
  foldl copy_term_field md l !! h = md !! h.
Proof.
  induction l as [|ci l IH]; intros md Hl; cbn [foldl]; [reflexivity|].
  apply Forall_cons in Hl as [Hci Hl].
  rewrite IH by exact Hl. apply copy_term_field_other, Hci.
Qed.

Lemma numbered_tail s ci (l : list HowToCopy) :
  (forall c ci', (ci :: l) !! c = Some ci' ->
     split_handle ci' = s + c /\ orig_handle ci' < s) ->
  forall c ci', l !! c = Some ci' ->
     split_handle ci' = S s + c /\ orig_handle ci' < S s.
Proof.
  intros H c ci' Hc. destruct (H (S c) ci' Hc) as [H1 H2]. lia.
Qed.

Lemma numbered_splits_above s (l : list HowToCopy) :
  (forall c ci, l !! c = Some ci ->
     split_handle ci = s + c /\ orig_handle ci < s) ->
  forall h, h < s -> Forall (fun ci => split_handle ci <> h) l.
Proof.
  intros H h Hh. apply Forall_lookup. intros c ci Hc.
  destruct (H c ci Hc). lia.
Qed.

Lemma bridge_stored (l : list HowToCopy) : forall s md c ci e,
  (forall c ci, l !! c = Some ci ->
     split_handle ci = s + c /\ orig_handle ci < s) ->
  l !! c = Some ci ->
  md !! orig_handle ci = Some e ->
  foldl copy_term_field md l !! split_handle ci
  = Some (reposition (offsetInPhrase ci) e).
Proof.
  induction l as [|ci0 l IH]; intros s md c ci e Hl Hc He; [done|].
  cbn [foldl]. destruct c as [|c].
  - injection Hc as ->.
    rewrite bridge_other; [apply copy_term_field_stored, He|].
    apply Forall_lookup. intros c' ci' Hc'.
    destruct (Hl 0 ci eq_refl) as [-> _].
    destruct (Hl (S c') ci' Hc') as [-> _]. lia.
  - cbn in Hc. apply (IH (S s) _ c); [exact (numbered_tail s ci0 l Hl)|exact Hc|].
    rewrite copy_term_field_other; [exact He|].
    destruct (Hl 0 ci0 eq_refl) as [-> _].
    destruct (Hl (S c) ci Hc) as [_ Hlt]. lia.
Qed.

Lemma bridge_fixed (l : list HowToCopy) md :
  Forall (fun ci => copy_term_field md ci = md) l ->
  foldl copy_term_field md l = md.
Proof.
  induction l as [|ci l IH]; intros Hl; cbn [foldl]; [reflexivity|].
  apply Forall_cons in Hl as [Hci Hl]. rewrite Hci. apply IH, Hl.
Qed.

Lemma bridge_idempotent (l : list HowToCopy) s md :
  (forall c ci, l !! c = Some ci ->
     split_handle ci = s + c /\ orig_handle ci < s) ->
  foldl copy_term_field (foldl copy_term_field md l) l
  = foldl copy_term_field md l.
Proof.
  intros Hl. apply bridge_fixed, Forall_lookup. intros c ci Hc.
  destruct (Hl c ci Hc) as [_ Hlt].
  pose proof (bridge_other l (orig_handle ci) md
                (numbered_splits_above s l Hl _ Hlt)) as Horig.
  unfold copy_term_field at 1. rewrite Horig.
  destruct (md !! orig_handle ci) as [e|] eqn:He; [|reflexivity].
  apply insert_id. exact (bridge_stored l s md c ci e Hl Hc He).
Qed.

(** The instructions of a constructed facade are numbered from
    [_skipHandles]. *)
Lemma new_numbered env fieldId :
  let q := PhraseSplitterQueryEnv_new env fieldId in
  forall c ci, _copyInfo q !! c = Some ci ->
    split_handle ci = _skipHandles q + c /\ orig_handle ci < _skipHandles q.
Proof.
  cbn zeta. intros c ci Hc.
  destruct (new_consistent env fieldId) as (_ & Hcopy & _).
  destruct (new_frame env fieldId) as (_ & Hmax & Hskip).
  destruct (Hcopy c ci Hc) as [H1 H2].
  split; [exact H1|]. rewrite Hskip. rewrite Hmax in H2. lia.
Qed.

Lemma is_split_phrase_not_pass_through fieldId t :
  is_split_phrase fieldId t = true -> is_pass_through fieldId t = false.
Proof.
  unfold is_split_phrase, is_pass_through.
  intros [H1 H2]%andb_prop. rewrite H2.
  apply Nat.ltb_lt in H1. apply orb_false_intro; [|reflexivity].
  apply Nat.eqb_neq. lia.
Qed.

Lemma not_pass_through_references fieldId t :
  is_pass_through fieldId t = false ->
  sub_term_count t <> 1 /\ references_field fieldId t = true.
Proof.
  unfold is_pass_through. intros [H1 H2]%orb_false_elim.
  apply Nat.eqb_neq in H1. apply negb_false_iff in H2. auto.
Qed.

Lemma slot_width_sum fieldId ts :
  sum_list (slot_width fieldId <$> ts)
  = pass_through_count fieldId ts + split_sub_term_total fieldId ts.
Proof.
  unfold pass_through_count, split_sub_term_total.
  induction ts as [|t ts IH]; [reflexivity|].
  cbn [fmap list_fmap sum_list]. rewrite !filter_cons, IH.
  unfold slot_width.
  destruct (is_pass_through fieldId t) eqn:Hp.
  - assert (is_split_phrase fieldId t = false) as Hs.
    { destruct (is_split_phrase fieldId t) eqn:Hs; [|reflexivity].
      apply is_split_phrase_not_pass_through in Hs. congruence. }
    rewrite Hs.
    rewrite (decide_True (P := Is_true true)) by exact I.
    rewrite (decide_False (P := Is_true false)) by (intros []).
    cbn. lia.
  - rewrite (decide_False (P := Is_true false)) by (intros []).
    destruct (not_pass_through_references fieldId t Hp) as [Hn Hr].
    unfold is_split_phrase. rewrite Hr, andb_true_r.
    destruct (1 <? sub_term_count t) eqn:Hlt.
    + rewrite (decide_True (P := Is_true true)) by exact I. cbn. lia.
    + rewrite (decide_False (P := Is_true false)) by (intros []).
      apply Nat.ltb_ge in Hlt. cbn. lia.
Qed.

(** *** Public slots *)

Lemma public_slot_succ fieldId ts i t :
  ts !! i = Some t ->
  public_slot fieldId ts (S i)
  = public_slot fieldId ts i + slot_width fieldId t.
Proof.
  intros Hi. unfold public_slot.
  rewrite (take_S_r _ _ _ Hi), fmap_app, sum_list_with_app. cbn. lia.
Qed.

Lemma public_slot_mono fieldId ts : forall i j,
  i <= j -> public_slot fieldId ts i <= public_slot fieldId ts j.
Proof.
  unfold public_slot.
  induction ts as [|t ts IH]; intros i j Hij.
  - rewrite !take_nil. lia.
  - destruct i as [|i]; [cbn; lia|].
    destruct j as [|j]; [lia|].
    cbn. specialize (IH i j ltac:(lia)). lia.
Qed.

Lemma public_slot_total fieldId ts :
  public_slot fieldId ts (length ts) = sum_list (slot_width fieldId <$> ts).
Proof. unfold public_slot. rewrite take_ge by lia. reflexivity. Qed.

(** *** Lookup through the facade *)

Lemma getTerm_unfold q i ti :
  _termIdxMap q !! i = Some ti ->
  getTerm q i =
  if splitted ti then _terms q !! idx ti else getTerm (_queryEnv q) (idx ti).
Proof.
  intros Hti. cbn. unfold PhraseSplitterQueryEnv_getTerm.
  rewrite bool_decide_eq_false_2, Hti; [reflexivity|].
  apply lookup_lt_Some in Hti. lia.
Qed.

Lemma getTerm_out_of_range q i :
  getNumTerms q <= i -> getTerm q i = None.
Proof.
  intros Hi. cbn. unfold PhraseSplitterQueryEnv_getTerm.
  rewrite bool_decide_eq_true_2; [reflexivity|exact Hi].
Qed.

(** Construction rules out the reads of [_terms] past its end. *)
Lemma getTerm_splitted_in_range env fieldId i ti :
  _termIdxMap (PhraseSplitterQueryEnv_new env fieldId) !! i = Some ti ->
  splitted ti = true ->
  idx ti < length (_terms (PhraseSplitterQueryEnv_new env fieldId)).
Proof.
  intros Hti Hs.
  destruct (new_consistent env fieldId) as (_ & _ & _ & Hmap).
  specialize (Hmap i ti Hti). rewrite Hs in Hmap. exact Hmap.
Qed.

Lemma getTerm_resolves env fieldId i :
  let q := PhraseSplitterQueryEnv_new env fieldId in
  i < getNumTerms q ->
  exists ti, _termIdxMap q !! i = Some ti /\
    if splitted ti
    then exists s, _terms q !! idx ti = Some s /\ getTerm q i = Some s
    else exists t, getTerm env (idx ti) = Some t /\ getTerm q i = Some t.
Proof.
  cbn zeta. intros Hi.
  destruct (lookup_lt_is_Some_2 _ _ Hi) as [ti Hti].
  exists ti. split; [exact Hti|].
  rewrite (getTerm_unfold _ _ _ Hti).
  destruct (new_consistent env fieldId) as (_ & _ & _ & Hmap).
  destruct (new_frame env fieldId) as (Henv & _ & _).
  specialize (Hmap i ti Hti). rewrite Henv in *.
  destruct (splitted ti).
  - destruct (lookup_lt_is_Some_2 _ _ Hmap) as [s Hs]. eauto.
  - destruct (lookup_lt_is_Some_2 (env_terms env) _ Hmap) as [t Ht]. eauto.
Qed.

Lemma getTerm_pass_through env fieldId i t :
  env_terms env !! i = Some t ->
  is_pass_through fieldId t = true ->
  getTerm (PhraseSplitterQueryEnv_new env fieldId)
    (public_slot fieldId (env_terms env) i) = Some t.
Proof.
  intros Hi Hp.
  destruct (new_lookup env fieldId i t Hi) as [Hpass _].
  rewrite (getTerm_unfold _ _ _ (Hpass Hp)). cbn [splitted idx].
  destruct (new_frame env fieldId) as (-> & _ & _). exact Hi.
Qed.

Lemma getTerm_synthesized env fieldId i t k :
  env_terms env !! i = Some t ->
  is_pass_through fieldId t = false ->
  k < sub_term_count t ->
  let q := PhraseSplitterQueryEnv_new env fieldId in
  let c := synthesized_before fieldId (env_terms env) i + k in
  getTerm q (public_slot fieldId (env_terms env) i + k)
  = Some (synthesized_term fieldId t (_skipHandles q + c)).
Proof.
  intros Hi Hp Hk. cbn zeta.
  destruct (new_lookup env fieldId i t Hi) as [_ Hsplit].
  destruct (Hsplit Hp k Hk) as (Hmap & Hterm & _).
  rewrite (getTerm_unfold _ _ _ Hmap). cbn [splitted idx]. exact Hterm.
Qed.

(** *** The facade as the specification states it *)

(** C3: [getNumTerms] of the facade is the length of the term index map,
    which is the number of pass-through terms (sub-term count 1, or no
    reference to the target field) plus the sum of the sub-term counts of
    the split phrases (more than one sub-term and a reference to the target
    field). *)
Theorem getNumTerms_counts_slots (env : Env) (fieldId : nat) :
  let q := PhraseSplitterQueryEnv_new env fieldId in
  getNumTerms q = length (_termIdxMap q) /\
  length (_termIdxMap q)
  = pass_through_count fieldId (env_terms env)
    + split_sub_term_total fieldId (env_terms env).
Proof.
  cbn zeta. split; [reflexivity|].
  destruct (new_lengths env fieldId) as (-> & _ & _).
  apply slot_width_sum.
Qed.

(** C4: [getTerm idx] on the facade is a term exactly when
    [idx < getNumTerms]; at and beyond [getNumTerms] it is [nullptr]. *)
Theorem getTerm_present_iff_in_range (env : Env) (fieldId idx : nat) :
  let q := PhraseSplitterQueryEnv_new env fieldId in
  (is_Some (getTerm q idx) <-> idx < getNumTerms q) /\
  (getNumTerms q <= idx <-> getTerm q idx = None).
Proof.
  cbn zeta.
  assert (idx < getNumTerms (PhraseSplitterQueryEnv_new env fieldId) ->
          is_Some (getTerm (PhraseSplitterQueryEnv_new env fieldId) idx))
    as Hin.
  { intros Hlt.
    destruct (getTerm_resolves env fieldId idx Hlt) as (ti & _ & Hres).
    destruct (splitted ti); destruct Hres as (x & _ & ->); eauto. }
  split; split.
  - intros Hsome.
    destruct (decide (idx < getNumTerms
                              (PhraseSplitterQueryEnv_new env fieldId)))
      as [Hlt|Hge]; [exact Hlt|].
    rewrite getTerm_out_of_range in Hsome by lia.
    destruct Hsome as [? ?]. discriminate.
  - exact Hin.
  - apply getTerm_out_of_range.
  - intros Hnone.
    destruct (decide (idx < getNumTerms
                              (PhraseSplitterQueryEnv_new env fieldId)))
      as [Hlt|Hge]; [|lia].
    destruct (Hin Hlt) as [x Hx]. congruence.
Qed.

(** C5: for an index in range, [getTerm] goes through the entry of the term
    index map: an entry that is not [splitted] gives the wrapped
    environment's own term at [idx], an entry that is [splitted] gives the
    synthesized term stored at [idx] in [_terms]; and a pass-through term of
    the wrapped environment is served unchanged, handle included. *)
Theorem getTerm_resolves_through_map (env : Env) (fieldId i : nat) :
  let q := PhraseSplitterQueryEnv_new env fieldId in
  (i < getNumTerms q ->
   exists ti, _termIdxMap q !! i = Some ti /\
     if splitted ti
     then exists s, _terms q !! idx ti = Some s /\ getTerm q i = Some s
     else exists t, getTerm env (idx ti) = Some t /\ getTerm q i = Some t) /\
  (forall t, getTerm env i = Some t ->
     is_pass_through fieldId t = true ->
     getTerm q (public_slot fieldId (env_terms env) i) = getTerm env i).
Proof.
  cbn zeta. split.
  - apply getTerm_resolves.
  - intros t Ht Hp. rewrite Ht.
    apply getTerm_pass_through; [exact Ht|exact Hp].
Qed.

(** C6: the public slots keep the order of the original terms.  The term at
    original index [i] starts at [public_slot i]; a pass-through term has the
    one slot there; the sub-terms of a split phrase have the slots
    [public_slot i + 0 .. public_slot i + (N - 1)], in the order of their
    offsets in the phrase; the next original term starts right after, and
    every later one after that. *)
Theorem split_keeps_order (env : Env) (fieldId i : nat) (t : TermData) :
  env_terms env !! i = Some t ->
  let q := PhraseSplitterQueryEnv_new env fieldId in
  let base := public_slot fieldId (env_terms env) i in
  (is_pass_through fieldId t = true ->
     _termIdxMap q !! base = Some (mkTermIdx i false) /\
     public_slot fieldId (env_terms env) (S i) = base + 1) /\
  (is_split_phrase fieldId t = true ->
     (forall k, k < sub_term_count t ->
        let c := synthesized_before fieldId (env_terms env) i + k in
        _termIdxMap q !! (base + k) = Some (mkTermIdx c true) /\
        _terms q !! c
        = Some (synthesized_term fieldId t (_skipHandles q + c)) /\
        _copyInfo q !! c
        = Some (mkHowToCopy (handle t) (_skipHandles q + c) k)) /\
     public_slot fieldId (env_terms env) (S i) = base + sub_term_count t) /\
  (forall j, i < j ->
     public_slot fieldId (env_terms env) (S i)
     <= public_slot fieldId (env_terms env) j) /\
  public_slot fieldId (env_terms env) (S i) <= getNumTerms q.
Proof.
  intros Hi. cbn zeta.
  destruct (new_lookup env fieldId i t Hi) as [Hpass Hsplit].
  pose proof (public_slot_succ fieldId _ i t Hi) as Hnext.
  unfold slot_width in Hnext.
  split; [|split; [|split]].
  - intros Hp. rewrite Hp in Hnext. split; [exact (Hpass Hp)|exact Hnext].
  - intros Hs. apply is_split_phrase_not_pass_through in Hs.
    rewrite Hs in Hnext. split; [|exact Hnext].
    intros k Hk. exact (Hsplit Hs k Hk).
  - intros j Hj. apply public_slot_mono. lia.
  - cbn. unfold PhraseSplitterQueryEnv_getNumTerms.
    destruct (new_lengths env fieldId) as (-> & _ & _).
    rewrite <- public_slot_total. apply public_slot_mono.
    apply lookup_lt_Some in Hi. lia.
Qed.

(** The handle count of the model, in [nat]: [_maxHandle] is the largest
    handle among the original terms and the synthesized terms and their
    instructions are numbered [_maxHandle + 1], [_maxHandle + 2], ... in the
    order they are made.  Whether these numbers are the handles a 32-bit
    [TermFieldHandle] ends up with is what [synthesized_handles_fit] bounds. *)
Lemma handles_counted_in_sequence (env : Env) (fieldId : nat) :
  let q := PhraseSplitterQueryEnv_new env fieldId in
  let originals := handle <$> env_terms env in
  let synthesized := handle <$> _terms q in
  (Forall (fun h => h <= _maxHandle q) originals /\
   forall b, Forall (fun h => h <= b) originals -> _maxHandle q <= b) /\
  synthesized
  = (fun j => _maxHandle q + 1 + j) <$> seq 0 (length (_terms q)) /\
  split_handle <$> _copyInfo q = synthesized /\
  (forall h s, h ∈ originals -> s ∈ synthesized -> h < s) /\
  (forall h, h ∈ originals -> h ∉ synthesized) /\
  NoDup synthesized.
Proof.
  cbn zeta.
  destruct (new_frame env fieldId) as (_ & Hmax & Hskip).
  destruct (new_consistent env fieldId) as (Hlen & Hcopy & Hterm & _).
  set (q := PhraseSplitterQueryEnv_new env fieldId) in *.
  assert (Forall (fun h => h <= _maxHandle q) (handle <$> env_terms env))
    as Hbound.
  { rewrite Hmax. apply Forall_fmap, max_handle_upper_bound. }
  assert (handle <$> _terms q
          = (fun j => _maxHandle q + 1 + j) <$> seq 0 (length (_terms q)))
    as Hsynth.
  { apply list_eq. intros c. rewrite !list_lookup_fmap.
    destruct (_terms q !! c) as [s|] eqn:Hs.
    - rewrite lookup_seq_lt by (apply lookup_lt_Some in Hs; exact Hs).
      cbn. rewrite (Hterm c s Hs), Hskip, Hmax. reflexivity.
    - rewrite lookup_seq_ge by (apply lookup_ge_None in Hs; exact Hs).
      reflexivity. }
  assert (forall h s, h ∈ handle <$> env_terms env ->
                      s ∈ handle <$> _terms q -> h < s) as Habove.
  { intros h s Hh Hs. rewrite Hsynth in Hs.
    apply list_elem_of_fmap in Hs as (j & -> & _).
    rewrite Forall_forall in Hbound. specialize (Hbound h Hh). lia. }
  split; [split; [exact Hbound|]|split; [exact Hsynth|split; [|split; [exact Habove|split]]]].
  - intros b Hb. rewrite Hmax. apply max_handle_least.
    apply Forall_fmap in Hb. exact Hb.
  - apply list_eq. intros c. rewrite !list_lookup_fmap.
    destruct (_copyInfo q !! c) as [ci|] eqn:Hc.
    + destruct (lookup_lt_is_Some_2 (_terms q) c) as [s Hs].
      { rewrite <- Hlen. apply lookup_lt_Some in Hc. exact Hc. }
      rewrite Hs. cbn. destruct (Hcopy c ci Hc) as [-> _].
      rewrite (Hterm c s Hs). reflexivity.
    + rewrite (lookup_ge_None_2 (_terms q) c); [reflexivity|].
      rewrite <- Hlen. apply lookup_ge_None in Hc. exact Hc.
  - intros h Hh Hs. specialize (Habove h h Hh Hs). lia.
  - rewrite Hsynth. apply NoDup_fmap_2_strong; [|apply NoDup_seq].
    intros x y _ _ Hxy. lia.
Qed.

(** While [_maxHandle + length _terms] is below [2^32], every handle of the
    facade, original or synthesized, is a 32-bit value: the count in [nat]
    never passes the end of [TermFieldHandle]. *)
Lemma synthesized_handles_fit env fieldId :
  max_handle (env_terms env)
  + length (_terms (PhraseSplitterQueryEnv_new env fieldId)) < 2 ^ 32 ->
  Forall (fun ci => orig_handle ci < 2 ^ 32 /\ split_handle ci < 2 ^ 32)
         (_copyInfo (PhraseSplitterQueryEnv_new env fieldId)) /\
  Forall (fun s => handle s < 2 ^ 32)
         (_terms (PhraseSplitterQueryEnv_new env fieldId)).
Proof.
  intros Hfit.
  destruct (new_frame env fieldId) as (_ & Hmax & Hskip).
  destruct (new_consistent env fieldId) as (Hlen & Hcopy & Hterm & _).
  split; apply Forall_lookup.
  - intros c ci Hc. destruct (Hcopy c ci Hc) as [H1 H2].
    apply lookup_lt_Some in Hc. rewrite Hskip in H1. rewrite Hmax in H2.
    lia.
  - intros c s Hc. rewrite (Hterm c s Hc), Hskip.
    apply lookup_lt_Some in Hc. lia.
Qed.

(** The update reads the original entries of the bound match data: it
    stores under synthesized handles only. *)
Lemma update_keeps_original env fieldId md h :
  h <= _maxHandle (PhraseSplitterQueryEnv_new env fieldId) ->
  update (PhraseSplitterQueryEnv_new env fieldId) md !! h = md !! h.
Proof.
  intros Hh. unfold update. apply bridge_other.
  destruct (new_frame env fieldId) as (_ & Hmax & Hskip).
  apply (numbered_splits_above _ _ (new_numbered env fieldId)).
  rewrite Hskip. rewrite Hmax in Hh. lia.
Qed.

Lemma update_instruction env fieldId md c ci e :
  _copyInfo (PhraseSplitterQueryEnv_new env fieldId) !! c = Some ci ->
  md !! orig_handle ci = Some e ->
  update (PhraseSplitterQueryEnv_new env fieldId) md !! split_handle ci
  = Some (reposition (offsetInPhrase ci) e).
Proof.
  intros Hc He. unfold update.
  exact (bridge_stored _ _ md c ci e (new_numbered env fieldId) Hc He).
Qed.

Lemma reposition_positions k e :
  position <$> occurrences (reposition k e)
  = (fun p => p + k) <$> (position <$> occurrences e).
Proof.
  unfold reposition. cbn. rewrite <- !list_fmap_compose. reflexivity.
Qed.

Lemma reposition_metadata k e :
  md_field_id (reposition k e) = md_field_id e /\
  element_id <$> occurrences (reposition k e)
  = element_id <$> occurrences e /\
  element_weight <$> occurrences (reposition k e)
  = element_weight <$> occurrences e.
Proof.
  unfold reposition. cbn. rewrite <- !list_fmap_compose. auto.
Qed.

(** C1: as long as handle allocation stays inside [TermFieldHandle]
    ([_maxHandle + length _terms < 2^32]): when the bound match data holds
    the entry [e] under the handle of a split phrase, then after the update
    the synthesized term for offset [k] of that phrase (the term in public
    slot [public_slot i + k]) has, under its own handle, the occurrences of
    [e] with every position moved by [k]: the positions are those of [e]
    plus [k], one for one and in order, and field id, element ids and
    weights are those of [e]. *)
Theorem update_repositions (env : Env) (fieldId : nat)
    (md : gmap nat TermFieldMatchData) (i k : nat) (t : TermData)
    (e : TermFieldMatchData) :
  max_handle (env_terms env)
  + length (_terms (PhraseSplitterQueryEnv_new env fieldId)) < 2 ^ 32 ->
  env_terms env !! i = Some t ->
  is_split_phrase fieldId t = true ->
  k < sub_term_count t ->
  md !! handle t = Some e ->
  let q := PhraseSplitterQueryEnv_new env fieldId in
  exists s e',
    getTerm q (public_slot fieldId (env_terms env) i + k) = Some s /\
    update q md !! handle s = Some e' /\
    position <$> occurrences e'
    = (fun p => p + k) <$> (position <$> occurrences e) /\
    md_field_id e' = md_field_id e /\
    element_id <$> occurrences e' = element_id <$> occurrences e /\
    element_weight <$> occurrences e' = element_weight <$> occurrences e.
Proof.
  intros _ Hi Hs Hk He. cbn zeta.
  apply is_split_phrase_not_pass_through in Hs.
  destruct (new_lookup env fieldId i t Hi) as [_ Hsplit].
  destruct (Hsplit Hs k Hk) as (_ & _ & Hcopy).
  eexists. exists (reposition k e).
  split; [exact (getTerm_synthesized env fieldId i t k Hi Hs Hk)|].
  split.
  - exact (update_instruction env fieldId md _ _ e Hcopy He).
  - split; [apply reposition_positions|apply reposition_metadata].
Qed.

(** C7: as long as handle allocation stays inside [TermFieldHandle]
    ([_maxHandle + length _terms < 2^32]), the update is idempotent: run on
    its own result it changes nothing, so every synthesized term keeps the
    match data the first run gave it. *)
Theorem update_idempotent (env : Env) (fieldId : nat)
    (md : gmap nat TermFieldMatchData) :
  max_handle (env_terms env)
  + length (_terms (PhraseSplitterQueryEnv_new env fieldId)) < 2 ^ 32 ->
  let q := PhraseSplitterQueryEnv_new env fieldId in
  update q (update q md) = update q md.
Proof.
  intros _. cbn zeta. unfold update.
  exact (bridge_idempotent _ _ md (new_numbered env fieldId)).
Qed.

Lemma perform_all_const (ops : list Operation) q : perform_all ops q = q.
Proof.
  unfold perform_all. induction ops as [|op ops IH]; [reflexivity|].
  cbn [foldl]. destruct op; exact IH.
Qed.

(** C8: on every facade, [getProperties], [getLocation],
    [getAttributeContext], [getIndexEnvironment] and
    [get_average_field_length] give what the wrapped environment gives, and
    they still do after any sequence of calls on the facade: no call changes
    the facade or the environment it wraps. *)
Theorem facade_forwards (q : Facade) (ops : list Operation)
    (field_name : string) :
  let q' := perform_all ops q in
  _queryEnv q' = _queryEnv q /\
  getProperties q' = getProperties (_queryEnv q) /\
  getLocation q' = getLocation (_queryEnv q) /\
  getAttributeContext q' = getAttributeContext (_queryEnv q) /\
  getIndexEnvironment q' = getIndexEnvironment (_queryEnv q) /\
  get_average_field_length q' field_name
  = get_average_field_length (_queryEnv q) field_name.
Proof. cbn zeta. rewrite perform_all_const. cbn. auto 10. Qed.

(** The constructed facade wraps the environment it was given. *)
Lemma new_wraps env fieldId :
  _queryEnv (PhraseSplitterQueryEnv_new env fieldId) = env.
Proof. apply new_frame. Qed.

End Facts.

(** *** The scenario of the specification, evaluated *)

Example scenario_getNumTerms : getNumTerms scenario.facade = 4.
Proof. reflexivity. Qed.

Example scenario_termIdxMap :
  _termIdxMap scenario.facade
  = [mkTermIdx 0 true; mkTermIdx 1 true; mkTermIdx 2 true; mkTermIdx 1 false].
Proof. reflexivity. Qed.

Example scenario_copyInfo :
  _copyInfo scenario.facade
  = [mkHowToCopy 0 2 0; mkHowToCopy 0 3 1; mkHowToCopy 0 4 2].
Proof. reflexivity. Qed.

Example scenario_getTerm_last :
  getTerm scenario.facade 3 = Some scenario.term1 /\
  getTerm scenario.facade 4 = None.
Proof. split; reflexivity. Qed.

Example scenario_positions :
  (fun h => (fun e => position <$> occurrences e)
            <$> update scenario.facade scenario.bound !! h) <$> [0; 2; 3; 4]
  = [Some [5; 9]; Some [5; 9]; Some [6; 10]; Some [7; 11]].
Proof. vm_compute. reflexivity. Qed.

Example duplicates_handles :
  _maxHandle (PhraseSplitterQueryEnv_new scenario.wrapped_duplicates 3) = 7 /\
  handle <$> _terms (PhraseSplitterQueryEnv_new scenario.wrapped_duplicates 3)
  = [8; 9; 10; 11].
Proof. split; reflexivity. Qed.

Lemma update_repositions_witness :
  exists s e',
    getTerm scenario.facade 1 = Some s /\
    update scenario.facade scenario.bound !! handle s = Some e' /\
    position <$> occurrences e' = [6; 10] /\
    md_field_id e' = 3 /\
    element_id <$> occurrences e' = [0; 0] /\
    element_weight <$> occurrences e' = [1%Z; 1%Z].
Proof.
  refine (update_repositions scenario.wrapped 3 scenario.bound 0 1
            scenario.term0
            (mkTermFieldMatchData 3 [mkOccurrence 5 0 1; mkOccurrence 9 0 1])
            _ _ _ _ _).
  - change (2 ^ 2 < 2 ^ 32). apply Nat.pow_lt_mono_r; lia.
  - reflexivity.
  - reflexivity.
  - cbn. lia.
  - vm_compute. reflexivity.
Defined.

Lemma update_idempotent_witness :
  update scenario.facade (update scenario.facade scenario.bound)
  = update scenario.facade scenario.bound.
Proof.
  apply (update_idempotent scenario.wrapped 3 scenario.bound).
  change (2 ^ 2 < 2 ^ 32). apply Nat.pow_lt_mono_r; lia.
Defined.

Lemma getTerm_present_iff_in_range_witness :
  is_Some (getTerm scenario.facade 2) /\ getTerm scenario.facade 4 = None.
Proof.
  split.
  - apply (proj1 (getTerm_present_iff_in_range scenario.wrapped 3 2)).
    cbn. lia.
  - apply (proj2 (getTerm_present_iff_in_range scenario.wrapped 3 4)).
    cbn. lia.
Defined.

Lemma getTerm_resolves_through_map_witness :
  (exists ti, _termIdxMap scenario.facade !! 3 = Some ti /\
     if splitted ti
     then exists s, _terms scenario.facade !! idx ti = Some s /\
                    getTerm scenario.facade 3 = Some s
     else exists t, getTerm scenario.wrapped (idx ti) = Some t /\
                    getTerm scenario.facade 3 = Some t) /\
  getTerm scenario.facade 3 = getTerm scenario.wrapped 1.
Proof.
  split.
  - apply (proj1 (getTerm_resolves_through_map scenario.wrapped 3 3)).
    cbn. lia.
  - apply (proj2 (getTerm_resolves_through_map scenario.wrapped 3 1)
             scenario.term1); reflexivity.
Defined.

Lemma split_keeps_order_witness :
  (forall k, k < 3 ->
     _termIdxMap scenario.facade !! (0 + k) = Some (mkTermIdx (0 + k) true) /\
     _terms scenario.facade !! (0 + k)
     = Some (synthesized_term 3 scenario.term0 (2 + (0 + k))) /\
     _copyInfo scenario.facade !! (0 + k)
     = Some (mkHowToCopy 0 (2 + (0 + k)) k)) /\
  public_slot 3 (env_terms scenario.wrapped) 1 = 3.
Proof.
  apply (proj1 (proj2 (split_keeps_order scenario.wrapped 3 0 scenario.term0
                         eq_refl))).
  reflexivity.
Defined.

End PhraseSplitter_facts.

(** * Further properties of the code *)

(** ** [roundUp2inN]: range, fixed points, growth *)

Module roundUp2inN_more.
Import vespalib roundUp2inN_facts.
Local Open Scope Z_scope.

Lemma roundUp2inN_upto minimum :
  1 <= minimum <= 2 ^ 63 ->
  roundUp2inN minimum = 2 ^ (Z.log2 (minimum - 1) + 1).
Proof.
  intros Hm. destruct (Z.eq_dec minimum 1) as [->|Hne]; [reflexivity|].
  apply roundUp2inN_small. lia.
Qed.

Lemma log2_pred_upto minimum :
  1 <= minimum <= 2 ^ 63 -> 0 <= Z.log2 (minimum - 1) <= 62.
Proof.
  intros Hm. split; [apply Z.log2_nonneg|].
  destruct (Z.eq_dec minimum 1) as [->|Hne];
    [change (Z.log2 (1 - 1)) with 0; lia|].
  assert (Z.log2 (minimum - 1) < 63) by (apply Z.log2_lt_pow2; lia). lia.
Qed.

Lemma roundUp2inN_zero : roundUp2inN 0 = 0.
Proof. reflexivity. Qed.

Lemma roundUp2inN_power k :
  1 <= k <= 63 -> roundUp2inN (2 ^ k) = 2 ^ k.
Proof.
  intros Hk.
  assert (2 ^ 1 <= 2 ^ k <= 2 ^ 63) as Hr
    by (split; apply Z.pow_le_mono_r; lia).
  rewrite roundUp2inN_small by (change (2 ^ 1) with 2 in Hr; lia).
  replace (2 ^ k - 1) with (Z.pred (2 ^ k)) by lia.
  rewrite Z.log2_pred_pow2 by lia. f_equal. lia.
Qed.

Lemma roundUp2inN_zero_or_power minimum :
  is_size_t minimum ->
  roundUp2inN minimum = 0 \/
  exists k, 1 <= k <= 63 /\ roundUp2inN minimum = 2 ^ k.
Proof.
  unfold is_size_t, size_t_bits. intros Hm.
  destruct (Z.eq_dec minimum 0) as [->|H0]; [left; reflexivity|].
  destruct (Z_le_gt_dec minimum (2 ^ 63)) as [Hle|Hgt].
  - right. exists (Z.log2 (minimum - 1) + 1).
    pose proof (log2_pred_upto minimum ltac:(lia)).
    split; [lia|]. apply roundUp2inN_upto. lia.
  - left. apply roundUp2inN_large. lia.
Qed.

(** The result is 0 or one of the powers of two [2^1 .. 2^63]: never 1, never
    odd, never a value that is not a power of two. *)
Theorem roundUp2inN_range (minimum : Z) :
  is_size_t minimum ->
  (roundUp2inN minimum = 0 \/
   exists k, 1 <= k <= 63 /\ roundUp2inN minimum = 2 ^ k) /\
  roundUp2inN minimum <> 1 /\
  Z.even (roundUp2inN minimum) = true.
Proof.
  intros Hm.
  destruct (roundUp2inN_zero_or_power minimum Hm) as [H0|(k & Hk & Hr)].
  - rewrite H0. split; [left; reflexivity|]. split; [lia|reflexivity].
  - rewrite Hr. split; [right; exists k; auto|].
    replace k with (1 + (k - 1)) by lia.
    rewrite Z.pow_add_r by lia. change (2 ^ 1) with 2.
    assert (0 < 2 ^ (k - 1)) by (apply Z.pow_pos_nonneg; lia).
    split; [lia|]. rewrite Z.even_mul. reflexivity.
Qed.

Lemma roundUp2inN_range_witness :
  (roundUp2inN 1000 = 0 \/
   exists k, 1 <= k <= 63 /\ roundUp2inN 1000 = 2 ^ k) /\
  roundUp2inN 1000 <> 1 /\
  Z.even (roundUp2inN 1000) = true.
Proof.
  apply (roundUp2inN_range 1000).
  unfold is_size_t, size_t_bits. lia.
Defined.

(** The result is 0 exactly for [minimum = 0] and for [minimum] above
    [2^63]: these are the arguments on which the shift wraps. *)
Theorem roundUp2inN_zero_iff (minimum : Z) :
  is_size_t minimum ->
  (roundUp2inN minimum = 0 <-> minimum = 0 \/ 2 ^ 63 < minimum).
Proof.
  unfold is_size_t, size_t_bits. intros Hm. split.
  - intros Hr.
    destruct (Z.eq_dec minimum 0) as [->|H0]; [left; reflexivity|].
    destruct (Z_le_gt_dec minimum (2 ^ 63)) as [Hle|Hgt]; [|right; lia].
    rewrite roundUp2inN_upto in Hr by lia.
    pose proof (log2_pred_upto minimum ltac:(lia)).
    assert (0 < 2 ^ (Z.log2 (minimum - 1) + 1))
      by (apply Z.pow_pos_nonneg; lia).
    lia.
  - intros [->|Hgt]; [reflexivity|]. apply roundUp2inN_large. lia.
Qed.

Lemma roundUp2inN_zero_iff_witness :
  roundUp2inN (2 ^ 64 - 1) = 0 <-> 2 ^ 64 - 1 = 0 \/ 2 ^ 63 < 2 ^ 64 - 1.
Proof.
  apply (roundUp2inN_zero_iff (2 ^ 64 - 1)).
  unfold is_size_t, size_t_bits. lia.
Defined.

(** Rounding is idempotent on every [size_t]: a result is rounded to
    itself, the wrapped result 0 included. *)
Theorem roundUp2inN_idempotent (minimum : Z) :
  is_size_t minimum ->
  roundUp2inN (roundUp2inN minimum) = roundUp2inN minimum.
Proof.
  intros Hm.
  destruct (roundUp2inN_zero_or_power minimum Hm) as [->|(k & Hk & ->)].
  - reflexivity.
  - apply roundUp2inN_power, Hk.
Qed.

Lemma roundUp2inN_idempotent_witness :
  roundUp2inN (roundUp2inN 5) = roundUp2inN 5.
Proof.
  apply (roundUp2inN_idempotent 5).
  unfold is_size_t, size_t_bits. lia.
Defined.

(** From 2 up to [2^63] the result is at least [minimum] and less than
    twice [minimum]. *)
Theorem roundUp2inN_less_than_twice (minimum : Z) :
  2 <= minimum <= 2 ^ 63 ->
  minimum <= roundUp2inN minimum < 2 * minimum.
Proof.
  intros Hm. rewrite roundUp2inN_small by exact Hm.
  pose proof (Z.log2_nonneg (minimum - 1)) as Hn.
  pose proof (Z.log2_spec (minimum - 1) ltac:(lia)) as [Hlo Hhi].
  replace (Z.succ (Z.log2 (minimum - 1)))
    with (Z.log2 (minimum - 1) + 1) in Hhi by lia.
  split; [lia|].
  rewrite Z.pow_add_r by lia. change (2 ^ 1) with 2. lia.
Qed.

Lemma roundUp2inN_less_than_twice_witness :
  1000 <= roundUp2inN 1000 < 2 * 1000.
Proof. apply (roundUp2inN_less_than_twice 1000). lia. Defined.

(** From 1 up to [2^63] rounding is monotone.  (Beyond, it is not: the
    result drops to 0.) *)
Theorem roundUp2inN_monotone (a b : Z) :
  1 <= a -> a <= b -> b <= 2 ^ 63 ->
  roundUp2inN a <= roundUp2inN b.
Proof.
  intros Ha Hab Hb. rewrite !roundUp2inN_upto by lia.
  apply Z.pow_le_mono_r; [lia|].
  pose proof (Z.log2_le_mono (a - 1) (b - 1) ltac:(lia)). lia.
Qed.

Lemma roundUp2inN_monotone_witness : roundUp2inN 3 <= roundUp2inN 9.
Proof. apply (roundUp2inN_monotone 3 9); lia. Defined.

Example roundUp2inN_not_monotone_beyond :
  2 ^ 63 <= 2 ^ 63 + 1 /\ roundUp2inN (2 ^ 63 + 1) < roundUp2inN (2 ^ 63).
Proof. split; [lia|reflexivity]. Qed.

End roundUp2inN_more.

(** ** [Alloc]: how move, swap, clear and create compose *)

Module Alloc_composition.
Import alloc.
Local Open Scope Z_scope.

Lemma clear_is_default a : clear a = Alloc_default.
Proof. reflexivity. Qed.

(** Move construction is a swap with a default-constructed [Alloc]: the new
    object gets what [rhs] held and [rhs] gets the default state. *)
Theorem Alloc_move_is_swap_with_default (rhs : Alloc) :
  Alloc_move rhs = swap Alloc_default rhs.
Proof. destruct rhs. reflexivity. Qed.

(** Swapping twice gives both objects back as they were, and one swap
    exchanges what [get], [size] and the allocator show. *)
Theorem swap_involutive (a b : Alloc) :
  swap (fst (swap a b)) (snd (swap a b)) = (a, b) /\
  get (fst (swap a b)) = get b /\ size (fst (swap a b)) = size b /\
  _allocator (fst (swap a b)) = _allocator b /\
  get (snd (swap a b)) = get a /\ size (snd (swap a b)) = size a /\
  _allocator (snd (swap a b)) = _allocator a.
Proof. destruct a, b. cbn. auto 10. Qed.

(** A chain of two move constructions hands the allocation on unchanged and
    leaves both objects it passed through in the default state. *)
Theorem Alloc_move_chain (a : Alloc) :
  let b := fst (Alloc_move a) in
  let c := fst (Alloc_move b) in
  c = a /\
  snd (Alloc_move a) = Alloc_default /\
  snd (Alloc_move b) = Alloc_default.
Proof. destruct a. cbn. auto. Qed.

(** A moved-from [Alloc] has lost its strategy: [create(0)] on it gives a
    default [Alloc], whatever allocator the source had; on the object that
    took the allocation over, [create(0)] still carries that allocator. *)
Theorem create_after_move (Alloc_sized : pointer -> Z -> Alloc)
    (rhs : Alloc) :
  create Alloc_sized (snd (Alloc_move rhs)) 0 = Alloc_default /\
  _allocator (create Alloc_sized (fst (Alloc_move rhs)) 0)
  = _allocator rhs.
Proof. split; reflexivity. Qed.

End Alloc_composition.

